(** * fuzz: reversible session options and struct value assembly

    A shallow embedding of [fuzz.go] (package [fuzz]) and the properties of
    its session configuration protocol and of [Fuzz.Value].

    Conventions.
    - Go maps are [gmap]s.  A nil Go map reads like the empty map; the only
      map write of the package ([BindField]) is guarded by a successful
      lookup in [fields], and a session whose [bindings] is nil (the zero
      [Fuzz]) has nil [fields] as well, so the write never meets a nil map.
    - A [range] loop over a Go map visits every entry once, in an order the
      language leaves unspecified: [Value] takes the enumeration as an
      argument and [ranges] says which enumerations are possible.
    - [panic]/[recover] is modelled by the [Completion] of a call; a panic
      carries a non-nil payload (since Go 1.21 [panic(nil)] raises a
      [*runtime.PanicNilError], which is an [error]).
    - [math/rand.Rand] and [testing/quick.Value] are collaborators outside
      the package: the state of the source is an abstract type [Rand] and
      the default-value facility a function [quick_Value] that advances it.
    - A generator draws from the source for a size hint.  In [Value] it
      leaves the session alone; [Value_reentrant] is [f.Value] with
      generators that reconfigure the session they are bound in. *)

From Stdlib Require Import ZArith String.
From stdpp Require Import base option list gmap strings pretty.

Local Open Scope string_scope.
Local Set Warnings "-register-all".

(** ** package reflect: types, values, zero values and [Set] *)

Record StructField_ (T : Type) : Type := mkStructField {
  Name : string;
  PkgPath : string;   (* empty for an exported (upper case) field *)
  Typ : T;
}.
Arguments mkStructField {T} _ _ _.
Arguments Name {T} _.
Arguments PkgPath {T} _.
Arguments Typ {T} _.

(** The kinds of type the development distinguishes.  [UnsafePointer] stands
    for the kinds [testing/quick] has no generator for. *)
Inductive reflect_Type : Type :=
| Bool
| Int
| String_
| UnsafePointer
| Struct (fs : list (StructField_ reflect_Type)).

Abbreviation reflect_StructField := (StructField_ reflect_Type).

(** A [reflect.Value]: [Invalid] is the zero [reflect.Value]; a struct value
    keeps its fields, in declaration order, next to their descriptors;
    [VReadOnly v] is [v] as it is obtained through a field that is not
    exported (the read-only flag of [reflect]). *)
Inductive reflect_Value : Type :=
| Invalid
| VBool (b : bool)
| VInt (z : Z)
| VString (s : string)
| VPointer (addr : Z)
| VStruct (fvs : list (reflect_StructField * reflect_Value))
| VReadOnly (v : reflect_Value).

Definition isReadOnly (v : reflect_Value) : bool :=
  match v with
  | VReadOnly _ => true
  | _ => false
  end.

(** The value under the read-only flag. *)
Fixpoint unwrap (v : reflect_Value) : reflect_Value :=
  match v with
  | VReadOnly w => unwrap w
  | _ => v
  end.

(** [reflect.Zero(t)]: the zero value of a type. *)
Fixpoint Zero (t : reflect_Type) : reflect_Value :=
  match t with
  | Bool => VBool false
  | Int => VInt 0
  | String_ => VString ""
  | UnsafePointer => VPointer 0
  | Struct fs => VStruct (map (fun sf => (sf, Zero (Typ sf))) fs)
  end.

Fixpoint reflect_Type_eqb (a b : reflect_Type) {struct a} : bool :=
  match a, b with
  | Bool, Bool | Int, Int | String_, String_ | UnsafePointer, UnsafePointer => true
  | Struct fa, Struct fb =>
      (fix go (xs ys : list reflect_StructField) {struct xs} : bool :=
         match xs, ys with
         | [], [] => true
         | x :: xs', y :: ys' =>
             bool_decide (Name x = Name y) && bool_decide (PkgPath x = PkgPath y)
             && reflect_Type_eqb (Typ x) (Typ y) && go xs' ys'
         | _, _ => false
         end) fa fb
  | _, _ => false
  end.

(** [v.Type()], where it is defined ([None] for the zero [reflect.Value]). *)
Fixpoint TypeOf (v : reflect_Value) : option reflect_Type :=
  match v with
  | Invalid => None
  | VBool _ => Some Bool
  | VInt _ => Some Int
  | VString _ => Some String_
  | VPointer _ => Some UnsafePointer
  | VStruct fvs => Some (Struct (map fst fvs))
  | VReadOnly w => TypeOf w
  end.

(** [t.String()], as far as the panic messages of [reflect] need it. *)
Fixpoint Type_String (t : reflect_Type) : string :=
  match t with
  | Bool => "bool"
  | Int => "int"
  | String_ => "string"
  | UnsafePointer => "unsafe.Pointer"
  | Struct fs =>
      "struct {"
      ++ String.concat ";" (map (fun sf => " " ++ Name sf ++ " " ++ Type_String (Typ sf)) fs)
      ++ " }"
  end.

(** ** Errors, panics and the completion of a call *)

Inductive error : Type :=
| errorString (msg : string)          (* errors.New, fmt.Errorf *)
| runtime_Error (msg : string)        (* a run-time panic of the Go runtime *)
| reflect_ValueError (method : string) (kind : string).

Definition errors_New (msg : string) : error := errorString msg.

Definition errIllegal : error := errors_New "fuzz: illegal type for quick.Value".
Definition errMissingFunc : error := errors_New "fuzz: missing assigned generator".
Definition errNotStruct : error := errors_New "fuzz: requested type is not a struct".
Definition errUnmatchedBinding : error := errors_New "fuzz: unmatched binding".
Definition errDuplBinding : error := errors_New "fuzz: duplicated binding".
Definition errIllegalGen : error := errors_New "fuzz: illegal generator".

(** [e.Error()] *)
Definition Error (e : error) : string :=
  match e with
  | errorString msg => msg
  | runtime_Error msg => "runtime error: " ++ msg
  | reflect_ValueError method kind =>
      "reflect: call of " ++ method ++ " on " ++ kind ++ " Value"
  end.

Definition nilDereference : error :=
  runtime_Error "invalid memory address or nil pointer dereference".

(** The payload of a panic: an [error], or any other value, kept as the
    texts the verbs [%s] and [%v] print for it. *)
Inductive PanicValue : Type :=
| PError (e : error)
| POther (fmt_s fmt_v : string).

(** A string payload prints as itself under both verbs. *)
Definition PString (s : string) : PanicValue := POther s s.

Inductive Completion (A : Type) : Type :=
| Returns (a : A)
| Panics (r : PanicValue).
Arguments Returns {A} _.
Arguments Panics {A} _.

(** [v.FieldByName(name).Set(elem)] on the addressable struct value [v]:
    the struct after the assignment, or the panic [reflect] raises.  The
    first field called [name] is the one found; [Set] refuses a field that
    is not exported, then a zero or read-only [elem], then an [elem] of
    another type than the field. *)
Fixpoint setField (fvs : list (reflect_StructField * reflect_Value))
    (name : string) (elem : reflect_Value)
    : Completion (list (reflect_StructField * reflect_Value)) :=
  match fvs with
  | [] => Panics (PError (reflect_ValueError "reflect.Value.Set" "zero"))
  | (sf, old) :: rest =>
      if bool_decide (Name sf = name) then
        if negb (bool_decide (PkgPath sf = "")) then
          Panics (PString
            "reflect: reflect.Value.Set using value obtained using unexported field")
        else
          match TypeOf elem with
          | None => Panics (PError (reflect_ValueError "reflect.Value.Set" "zero"))
          | Some t =>
              if isReadOnly elem then
                Panics (PString
                  "reflect: reflect.Value.Set using value obtained using unexported field")
              else if reflect_Type_eqb t (Typ sf) then Returns ((sf, elem) :: rest)
              else Panics (PString ("reflect.Set: value of type " ++ Type_String t
                                   ++ " is not assignable to type "
                                   ++ Type_String (Typ sf)))
          end
      else
        match setField rest name elem with
        | Returns rest' => Returns ((sf, old) :: rest')
        | Panics r => Panics r
        end
  end.

Fixpoint Kind_String (v : reflect_Value) : string :=
  match v with
  | Invalid => "zero"
  | VBool _ => "bool"
  | VInt _ => "int"
  | VString _ => "string"
  | VPointer _ => "unsafe.Pointer"
  | VStruct _ => "struct"
  | VReadOnly w => Kind_String w
  end.

(** [v.FieldByName(name)] read back: the value of the first field called
    [name] of a struct value. *)
Definition lookupField (fvs : list (reflect_StructField * reflect_Value))
    (name : string) : option reflect_Value :=
  snd <$> List.find (fun p => bool_decide (Name (fst p) = name)) fvs.

(** A field of a read-only struct is read-only, so [Set] refuses it; a
    field that is not there is the zero [reflect.Value]. *)
Definition FieldByName_Set (v : reflect_Value) (name : string) (elem : reflect_Value)
    : Completion reflect_Value :=
  match unwrap v with
  | VStruct fvs =>
      if isReadOnly v then
        match lookupField fvs name with
        | Some _ =>
            Panics (PString
              "reflect: reflect.Value.Set using value obtained using unexported field")
        | None => Panics (PError (reflect_ValueError "reflect.Value.Set" "zero"))
        end
      else
        match setField fvs name elem with
        | Returns fvs' => Returns (VStruct fvs')
        | Panics r => Panics r
        end
  | _ => Panics (PError (reflect_ValueError "reflect.Value.FieldByName" (Kind_String v)))
  end.

Definition FieldByName (v : reflect_Value) (name : string) : option reflect_Value :=
  match unwrap v with
  | VStruct fvs =>
      if isReadOnly v then VReadOnly <$> lookupField fvs name
      else lookupField fvs name
  | _ => None
  end.

(** [reflect.New(t).Elem()]: a fresh zero value of type [t]; [reflect.New]
    panics on a nil type. *)
Definition New_Elem (t : option reflect_Type) : Completion reflect_Value :=
  match t with
  | None => Panics (PString "reflect: New(nil)")
  | Some t => Returns (Zero t)
  end.

(** The possible enumerations of [for k, x := range m] over a Go map. *)
Definition ranges {V : Type} (m : gmap string V) (l : list (string * V)) : Prop :=
  l ≡ₚ map_to_list m.

(** ** package fuzz *)

Section fuzz.

Context {Rand : Type}.

(** [quick.Value(t, r)]: a value and [true], or [false] for a type without
    generator; like every collaborator it may panic instead (on a nil
    source, say); either way the source may have advanced. *)
Variable quick_Value :
  reflect_Type → Rand → Rand * Completion (option reflect_Value).

(** What a call of [Generate(r, n)] does: it advances the source and
    returns a value and an error, or panics. *)
Definition Generated : Type := Rand * Completion (reflect_Value * option error).

(** The interface [Generator]; [GeneratorFunc] is the adaptor of the
    package, [nilGenerator] the nil interface value. *)
Inductive Generator : Type :=
| nilGenerator
| GeneratorFunc (g : Rand → Z → Generated).

Definition Generate (g : Generator) (r : Rand) (n : Z) : Generated :=
  match g with
  | nilGenerator => (r, Panics (PError nilDereference))
  | GeneratorFunc g => g r n
  end.

Record Fuzz : Type := mkFuzz {
  bindings : gmap string Generator;
  zeroValueFallthrough : bool;
  typ : option reflect_Type;
  fields : gmap string reflect_StructField;
}.

(** The closures of type [option], defunctionalised: outside the package an
    [option] is nil or the result of one of the three constructors (the
    inverses [Option] returns are of these forms again). *)
Inductive option_ : Type :=
| nilOption
| UseZeroValueFallthrough (on : bool)
| BindField (name : string) (gen : Generator)
| UnbindField (name : string).

Definition fmt_Errorf_absent (name : string) : error :=
  errorString ("fuzz: absent binding " ++ name).

(** [opt(f)]: the session after the call and what the call returns. *)
Definition apply (opt : option_) (f : Fuzz)
    : Fuzz * Completion (option_ * option error) :=
  match opt with
  | nilOption => (f, Panics (PError nilDereference))
  | UseZeroValueFallthrough on =>
      let prev := zeroValueFallthrough f in
      (mkFuzz (bindings f) on (typ f) (fields f),
       Returns (UseZeroValueFallthrough prev, None))
  | BindField name gen =>
      match bindings f !! name with
      | Some _ => (f, Returns (nilOption, Some errDuplBinding))
      | None =>
          match fields f !! name with
          | None => (f, Returns (nilOption, Some errUnmatchedBinding))
          | Some _ =>
              (mkFuzz (<[name := gen]> (bindings f)) (zeroValueFallthrough f)
                      (typ f) (fields f),
               Returns (UnbindField name, None))
          end
      end
  | UnbindField name =>
      match bindings f !! name with
      | None => (f, Returns (nilOption, Some (fmt_Errorf_absent name)))
      | Some gen =>
          (mkFuzz (delete name (bindings f)) (zeroValueFallthrough f)
                  (typ f) (fields f),
           Returns (BindField name gen, None))
      end
  end.

(** The loop of [Option] over [opts], started with the named results
    [prev] and [err]: the session, the named results when the body is left,
    and the payload when it is left by a panic. *)
Fixpoint Option_range (opts : list option_) (f : Fuzz)
    (prev : option_) (err : option error)
    : Fuzz * option_ * option error * option PanicValue :=
  match opts with
  | [] => (f, prev, err, None)
  | opt :: rest =>
      match apply opt f with
      | (f', Returns (prev', Some e)) => (f', prev', Some e, None)
      | (f', Returns (prev', None)) => Option_range rest f' prev' None
      | (f', Panics r) => (f', prev, err, Some r)
      end
  end.

(** The deferred function of [Option]: the error a recovered payload
    becomes. *)
Definition Option_recovered (r : PanicValue) : error :=
  match r with
  | PError e => e
  | POther fmt_s _ => errorString ("fuzz: option error " ++ fmt_s)
  end.

Definition Option (f : Fuzz) (opts : list option_)
    : Fuzz * Completion (option_ * option error) :=
  match Option_range opts f nilOption None with
  | (f', prev, err, None) => (f', Returns (prev, err))
  | (f', prev, _, Some r) => (f', Returns (prev, Some (Option_recovered r)))
  end.

Definition MustOption (f : Fuzz) (opts : list option_) : Fuzz * Completion option_ :=
  match Option f opts with
  | (f', Returns (prev, None)) => (f', Returns prev)
  | (f', Returns (_, Some err)) => (f', Panics (PError err))
  | (f', Panics r) => (f', Panics r)
  end.

(** The loop of [Value] over an enumeration [l] of [f.fields], started with
    the named results [v] and [err]. *)
Fixpoint Value_range (l : list (string * reflect_StructField)) (n : Z)
    (f : Fuzz) (r : Rand) (v : reflect_Value) (err : option error)
    : Fuzz * Rand * reflect_Value * option error * option PanicValue :=
  match l with
  | [] => (f, r, v, err, None)
  | (name, field) :: rest =>
      match bindings f !! name with
      | Some gen =>
          match Generate gen r n with
          | (r', Returns (elem, Some e)) => (f, r', v, Some e, None)
          | (r', Returns (elem, None)) =>
              match FieldByName_Set v name elem with
              | Returns v' => Value_range rest n f r' v' err
              | Panics p => (f, r', v, err, Some p)
              end
          | (r', Panics p) => (f, r', v, err, Some p)
          end
      | None =>
          if zeroValueFallthrough f then Value_range rest n f r v err
          else
            match quick_Value (Typ field) r with
            | (r', Returns None) => (f, r', v, Some errIllegal, None)
            | (r', Returns (Some elem)) =>
                match FieldByName_Set v name elem with
                | Returns v' => Value_range rest n f r' v' err
                | Panics p => (f, r', v, err, Some p)
                end
            | (r', Panics p) => (f, r', v, err, Some p)
            end
      end
  end.

(** The deferred function of [Value]. *)
Definition Value_recovered (r : PanicValue) : error :=
  match r with
  | PError e => e
  | POther _ fmt_v => errorString ("fuzz: " ++ fmt_v)
  end.

(** [f.Value(r, n)], the fields map being enumerated as [l]. *)
Definition Value (f : Fuzz) (l : list (string * reflect_StructField))
    (r : Rand) (n : Z)
    : Fuzz * Rand * Completion (reflect_Value * option error) :=
  match New_Elem (typ f) with
  | Panics p => (f, r, Returns (Invalid, Some (Value_recovered p)))
  | Returns v0 =>
      match Value_range l n f r v0 None with
      | (f', r', v, err, None) => (f', r', Returns (v, err))
      | (f', r', v, _, Some p) => (f', r', Returns (v, Some (Value_recovered p)))
      end
  end.

(** [f.Value(r, n)] may return [res]: some enumeration of the map yields it. *)
Definition Value_returns (f : Fuzz) (r : Rand) (n : Z)
    (res : Fuzz * Rand * Completion (reflect_Value * option error)) : Prop :=
  ∃ l, ranges (fields f) l ∧ Value f l r n = res.





(** The loop of [New]: [fields[t.Field(i).Name] = t.Field(i)]. *)
Definition fields_of (fs : list reflect_StructField)
    : gmap string reflect_StructField :=
  foldl (fun m sf => <[Name sf := sf]> m) ∅ fs.

Definition New (t : option reflect_Type) : option Fuzz * option error :=
  match t with
  | Some (Struct fs) => (Some (mkFuzz ∅ false t (fields_of fs)), None)
  | _ => (None, Some errNotStruct)
  end.

Definition Must (f : option Fuzz) (e : option error) : Completion (option Fuzz) :=
  match e with
  | Some e => Panics (PError e)
  | None => Returns f
  end.

(** [QuickGenerator(g).Generate(r, n)] *)
Definition QuickGenerator (g : Generator) (r : Rand) (n : Z)
    : Rand * Completion reflect_Value :=
  match Generate g r n with
  | (r', Returns (v, None)) => (r', Returns v)
  | (r', Returns (_, Some err)) =>
      (r', Panics (PError (errorString ("fuzz: " ++ Error err))))
  | (r', Panics p) => (r', Panics p)
  end.

(** The loop of [QuickValues(g...)(v, r)] from index [i] on: the slice [v]
    after the loop, the source, and how the loop is left. *)
Fixpoint QuickValues_range (i : nat) (g : list Generator)
    (v : list reflect_Value) (r : Rand)
    : list reflect_Value * Rand * Completion unit :=
  match g with
  | [] => (v, r, Returns tt)
  | gi :: rest =>
      match Generate gi r 0 with
      | (r', Panics p) => (v, r', Panics p)
      | (r', Returns (x, err)) =>
          if decide (i < length v)%nat then
            let v' := <[i := x]> v in
            match err with
            | Some e => (v', r', Panics (PError (errorString ("fuzz: " ++ Error e))))
            | None => QuickValues_range (S i) rest v' r'
            end
          else
            (v, r', Panics (PError (runtime_Error
               ("index out of range [" ++ pretty i ++ "] with length "
                ++ pretty (length v)))))
      end
  end.

Definition QuickValues (g : list Generator) (v : list reflect_Value) (r : Rand)
    : list reflect_Value * Rand * Completion unit :=
  if negb (length v =? length v)%nat then
    (v, r, Panics (PString "fuzz: incongruent Values() and Generator... signature"))
  else QuickValues_range 0 g v r.

(** The sessions [New] and [Option] build: the type is a struct, [fields]
    is its field table, and only fields of the table are bound. *)
Record wf (f : Fuzz) : Prop := mkWf {
  wf_typ : ∃ fs, typ f = Some (Struct fs) ∧ fields f = fields_of fs;
  wf_bindings : dom (bindings f) ⊆ dom (fields f);
}.

End fuzz.

(** ** The record type of the scenarios and a small random source *)

Definition Person_Name : reflect_StructField := mkStructField "Name" "" String_.
Definition Person_Age : reflect_StructField := mkStructField "Age" "" Int.

(** [type Person struct { Name string; Age int }] *)
Definition Person : reflect_Type := Struct [Person_Name; Person_Age].

(** A source that hands out the integers from its seed on, and a facility
    that makes an [int] or a [string] of one draw; the kinds without
    generator are refused. *)
Definition counter_quick_Value (t : reflect_Type) (r : Z)
    : Z * Completion (option reflect_Value) :=
  match t with
  | Bool => ((r + 1)%Z, Returns (Some (VBool (Z.even r))))
  | Int => ((r + 1)%Z, Returns (Some (VInt r)))
  | String_ => ((r + 1)%Z, Returns (Some (VString (pretty r))))
  | UnsafePointer => (r, Returns None)
  | Struct _ => (r, Returns None)
  end.

(** A generator that always returns 42. *)
Definition always42 {Rand : Type} : Generator (Rand := Rand) :=
  GeneratorFunc (fun r _ => (r, Returns (VInt 42, None))).

(** A generator that panics with a string. *)
Definition panicking {Rand : Type} : Generator (Rand := Rand) :=
  GeneratorFunc (fun r _ => (r, Panics (PString "no value today"))).

(** The session [New(reflect.TypeOf(Person{}))] returns. *)
Definition person {Rand : Type} : Fuzz (Rand := Rand) :=
  mkFuzz ∅ false (Some Person) (fields_of [Person_Name; Person_Age]).

(** The two enumerations of its field table. *)
Definition Name_Age : list (string * reflect_StructField) :=
  [("Name", Person_Name); ("Age", Person_Age)].
Definition Age_Name : list (string * reflect_StructField) :=
  [("Age", Person_Age); ("Name", Person_Name)].

(** [type Account struct { Owner string; balance int }] of a package
    [bank]: its second field is not exported. *)
Definition Account_Owner : reflect_StructField := mkStructField "Owner" "" String_.
Definition Account_balance : reflect_StructField := mkStructField "balance" "bank" Int.
Definition Account : reflect_Type := Struct [Account_Owner; Account_balance].





(** [Person] with [Age] bound to the generator that returns 42. *)
Definition person_Age_42 {Rand : Type} (fallthrough : bool) : Fuzz (Rand := Rand) :=
  mkFuzz {["Age" := always42]} fallthrough (Some Person)
    (fields_of [Person_Name; Person_Age]).

(** ** The configuration protocol *)

Section options.

Context {Rand : Type}.
Implicit Types (f : Fuzz (Rand := Rand)) (G gen : Generator (Rand := Rand)).
Implicit Types (opt : option_ (Rand := Rand)) (name F : string).

(** [Option] with one operation is that operation, unless it panics. *)
Lemma Option_single opt f f' res :
  apply opt f = (f', Returns res) → Option f [opt] = (f', Returns res).
Proof.
  intros Happly. unfold Option. cbn [Option_range]. rewrite Happly.
  destruct res as [prev [e|]]; reflexivity.
Qed.

(** A failing [apply] that returns leaves the session alone and returns the
    nil option. *)
Lemma apply_failure opt f f' prev e :
  apply opt f = (f', Returns (prev, Some e)) → f' = f ∧ prev = nilOption.
Proof.
  destruct opt as [|on|name gen|name]; cbn [apply]; intros Happly.
  - discriminate.
  - discriminate.
  - destruct (bindings f !! name); [by inversion Happly|].
    destruct (fields f !! name); by inversion Happly.
  - destruct (bindings f !! name); by inversion Happly.
Qed.

(** A panicking [apply] leaves the session alone as well. *)
Lemma apply_panic opt f f' r :
  apply opt f = (f', Panics r) → f' = f ∧ opt = nilOption.
Proof.
  destruct opt as [|on|name gen|name]; cbn [apply]; intros Happly.
  - by inversion Happly.
  - discriminate.
  - destruct (bindings f !! name); [discriminate|].
    destruct (fields f !! name); discriminate.
  - destruct (bindings f !! name); discriminate.
Qed.

(** [apply] keeps the type handle and the field table. *)
Lemma apply_typ_fields opt f f' c :
  apply opt f = (f', c) → typ f' = typ f ∧ fields f' = fields f.
Proof.
  destruct opt as [|on|name gen|name]; cbn [apply]; intros Happly.
  - by inversion Happly.
  - by inversion Happly.
  - destruct (bindings f !! name); [by inversion Happly|].
    destruct (fields f !! name); by inversion Happly.
  - destruct (bindings f !! name); by inversion Happly.
Qed.

(** The invariant of sessions: [New] establishes it, [apply] keeps it. *)
Lemma New_wf t f : New t = (Some f, None) → wf f.
Proof.
  destruct t as [[| | | |fs]|]; cbn; intros [= <-].
  split; cbn; [by exists fs|]. set_solver.
Qed.

Lemma apply_wf opt f f' c : wf f → apply opt f = (f', c) → wf f'.
Proof.
  intros [Htyp Hdom] Happly.
  destruct (apply_typ_fields _ _ _ _ Happly) as [Ht Hf].
  split; [by rewrite Ht, Hf|]. rewrite Hf.
  destruct opt as [|on|name gen|name]; cbn [apply] in Happly.
  - by simplify_eq.
  - by simplify_eq.
  - destruct (bindings f !! name); [by simplify_eq|].
    destruct (fields f !! name) as [sf|] eqn:Hfield; simplify_eq; [|done].
    cbn. rewrite dom_insert. apply union_subseteq. split; [|done].
    apply singleton_subseteq_l. by apply elem_of_dom_2 in Hfield.
  - destruct (bindings f !! name); simplify_eq; [|done].
    cbn. rewrite dom_delete. by apply subseteq_difference_l.
Qed.

Lemma Option_range_wf opts : ∀ f prev err f' prev' err' p,
  wf f → Option_range opts f prev err = (f', prev', err', p) → wf f'.
Proof.
  induction opts as [|opt opts IH]; intros f prev err f' prev' err' p Hwf; cbn.
  - by intros [= <- _ _ _].
  - destruct (apply opt f) as [f1 [[prev1 [e|]]|r]] eqn:Happly.
    + intros [= <- _ _ _]. by eapply apply_wf.
    + intros Hrange. eapply IH; [|exact Hrange]. by eapply apply_wf.
    + intros [= <- _ _ _]. by eapply apply_wf.
Qed.

Lemma Option_wf f opts f' c : wf f → Option f opts = (f', c) → wf f'.
Proof.
  intros Hwf. unfold Option.
  destruct (Option_range opts f nilOption None) as [[[f1 prev] err] [r|]] eqn:Hrange;
    intros [= <- _]; by eapply Option_range_wf.
Qed.

(** The field table [New] builds has exactly the names of the fields of
    the struct type. *)
Lemma fields_of_is_Some (fs : list reflect_StructField) name :
  is_Some (fields_of fs !! name) ↔ name ∈ Name <$> fs.
Proof.
  unfold fields_of.
  assert (∀ m : gmap string reflect_StructField,
            is_Some (foldl (fun m sf => <[Name sf := sf]> m) m fs !! name)
            ↔ is_Some (m !! name) ∨ name ∈ Name <$> fs) as Hfold.
  { induction fs as [|sf fs IH]; intros m; cbn.
    - rewrite elem_of_nil. tauto.
    - rewrite IH, elem_of_cons, lookup_insert_is_Some.
      destruct (decide (Name sf = name)); intuition congruence. }
  rewrite Hfold, lookup_empty, is_Some_alt. tauto.
Qed.

Lemma wf_field f fs name :
  wf f → typ f = Some (Struct fs) →
  is_Some (fields f !! name) ↔ name ∈ Name <$> fs.
Proof.
  intros [(fs' & Htyp & ->) _] Hfs. rewrite Htyp in Hfs.
  injection Hfs as ->. apply fields_of_is_Some.
Qed.

(** In a session of the invariant a name outside the field table is
    unbound. *)
Lemma wf_unbound f name : wf f → fields f !! name = None → bindings f !! name = None.
Proof.
  intros [_ Hdom] Hfield. apply not_elem_of_dom. apply not_elem_of_dom in Hfield.
  set_solver.
Qed.

(** C4.  Binding round trip: in a session of the invariant, when [F] is a
    field of the session's record type and is unbound,
    [Option(BindField(F, G))] succeeds, binds [F] to [G] and returns an
    inverse whose application restores the session exactly as it was:
    registry, fallthrough flag, type handle and field table, with [F]
    unbound again. *)
Theorem BindField_round_trip f fs F G :
  wf f → typ f = Some (Struct fs) → F ∈ Name <$> fs →
  bindings f !! F = None →
  ∃ inverse f',
    Option f [BindField F G] = (f', Returns (inverse, None))
    ∧ bindings f' !! F = Some G
    ∧ Option f' [inverse] = (f, Returns (BindField F G, None))
    ∧ bindings f !! F = None.
Proof.
  intros Hwf Htyp [sf Hfield]%(wf_field f fs F Hwf Htyp) Hfree.
  exists (UnbindField F),
    (mkFuzz (<[F := G]> (bindings f)) (zeroValueFallthrough f) (typ f) (fields f)).
  split; [|split; [|split]].
  - apply Option_single. cbn. by rewrite Hfree, Hfield.
  - cbn. apply lookup_insert_eq.
  - apply Option_single. cbn. rewrite lookup_insert_eq.
    rewrite delete_insert_id by done. by destruct f.
  - done.
Qed.

(** C5.  [Option(BindField(name, G))]: an already bound [name] fails with
    [errDuplBinding]; a [name] that is no field of the record type of a
    session of the invariant fails with [errUnmatchedBinding]; both failures
    leave the whole session, the registry included, as it was; otherwise the
    call succeeds, records exactly the mapping from [name] to [G] and returns
    [UnbindField(name)]. *)
Theorem BindField_outcomes f name G :
  (is_Some (bindings f !! name) →
     Option f [BindField name G] = (f, Returns (nilOption, Some errDuplBinding)))
  ∧ (∀ fs, wf f → typ f = Some (Struct fs) → name ∉ Name <$> fs →
     Option f [BindField name G] = (f, Returns (nilOption, Some errUnmatchedBinding)))
  ∧ (bindings f !! name = None → is_Some (fields f !! name) →
     Option f [BindField name G] =
       (mkFuzz (<[name := G]> (bindings f)) (zeroValueFallthrough f) (typ f) (fields f),
        Returns (UnbindField name, None))).
Proof.
  split; [|split].
  - intros [gen Hbound]. apply Option_single. cbn. by rewrite Hbound.
  - intros fs Hwf Htyp Hname. apply Option_single. cbn.
    assert (fields f !! name = None) as Hfield.
    { apply eq_None_not_Some. by rewrite (wf_field f fs name Hwf Htyp). }
    by rewrite (wf_unbound _ _ Hwf Hfield), Hfield.
  - intros Hfree [sf Hfield]. apply Option_single. cbn. by rewrite Hfree, Hfield.
Qed.

(** C6.  [Option(UnbindField(name))]: an unbound [name] fails with the
    absent-binding error and leaves the session as it was; a [name] bound to
    [G] is removed from the registry, nothing else changes, and the call
    returns [BindField(name, G)] with that very generator. *)
Theorem UnbindField_outcomes f name :
  (bindings f !! name = None →
     Option f [UnbindField name] =
       (f, Returns (nilOption, Some (errorString ("fuzz: absent binding " ++ name)))))
  ∧ (∀ G, bindings f !! name = Some G →
     Option f [UnbindField name] =
       (mkFuzz (delete name (bindings f)) (zeroValueFallthrough f) (typ f) (fields f),
        Returns (BindField name G, None))).
Proof.
  split.
  - intros Hfree. apply Option_single. cbn. by rewrite Hfree.
  - intros G Hbound. apply Option_single. cbn. by rewrite Hbound.
Qed.

(** A prefix that completes hands its session and its last inverse to the
    rest of the loop. *)
Lemma Option_range_app pre : ∀ rest f prev f1 p1,
  Option_range pre f prev None = (f1, p1, None, None) →
  Option_range (pre ++ rest) f prev None = Option_range rest f1 p1 None.
Proof.
  induction pre as [|opt pre IH]; intros rest f prev f1 p1; cbn.
  - by intros [= <- <-].
  - destruct (apply opt f) as [f' [[prev' [e|]]|r]]; [done| |done].
    apply IH.
Qed.

Lemma Option_succeeds_inv f opts f1 p1 :
  Option f opts = (f1, Returns (p1, None)) →
  Option_range opts f nilOption None = (f1, p1, None, None).
Proof.
  unfold Option.
  destruct (Option_range opts f nilOption None) as [[[f' prev] err] [r|]];
    [done|]. by intros [= <- <- <-].
Qed.

(** C1 (as the code has it).  When a prefix [pre] of the operations succeeds
    and the next operation [opt] fails, [Option] stops there: the session is
    the one the prefix left, whatever follows [opt], and the failure is
    returned.  With it comes the option the failing operation returned, which
    is nil, when the failure is a returned error; the inverse [p1] of the
    last operation of the prefix comes with it only when the failure is a
    recovered panic. *)
Theorem Option_short_circuit f pre opt post f1 p1 :
  Option f pre = (f1, Returns (p1, None)) →
  (∀ f2 q e, apply opt f1 = (f2, Returns (q, Some e)) →
     Option f (pre ++ opt :: post) = (f1, Returns (nilOption, Some e)))
  ∧ (∀ f2 r, apply opt f1 = (f2, Panics r) →
     Option f (pre ++ opt :: post) = (f1, Returns (p1, Some (Option_recovered r)))).
Proof.
  intros Hpre%Option_succeeds_inv. split.
  - intros f2 q e Happly. destruct (apply_failure _ _ _ _ _ Happly) as [-> ->].
    unfold Option. rewrite (Option_range_app _ _ _ _ _ _ Hpre). cbn [Option_range].
    by rewrite Happly.
  - intros f2 r Happly. destruct (apply_panic _ _ _ _ Happly) as [-> _].
    unfold Option. rewrite (Option_range_app _ _ _ _ _ _ Hpre). cbn [Option_range].
    by rewrite Happly.
Qed.

End options.

(** ** Facts about the model of reflect *)

(** [reflect_Type_eqb] decides identity of types, which is what [Set]
    asks of a value and a field (the model has no interface types). *)
Lemma reflect_Type_eqb_eq : ∀ a b : reflect_Type,
  reflect_Type_eqb a b = true → a = b.
Proof.
  fix eqb_eq 1.
  intros [| | | |fa] [| | | |fb]; cbn; try done.
  intros Heqb. f_equal. revert fb Heqb.
  induction fa as [|x xs IH]; intros [|y ys]; try done.
  intros [[[Hn%bool_decide_eq_true Hp%bool_decide_eq_true]%andb_prop
             Ht%eqb_eq]%andb_prop Hrest%IH]%andb_prop.
  destruct x, y; cbn in *. by subst.
Qed.


Section reflect_facts.

Implicit Types (fvs : list (reflect_StructField * reflect_Value)).
Implicit Types (v elem : reflect_Value) (name : string).






End reflect_facts.



(** The field table of [Person] is enumerated in one of two orders. *)
Lemma person_ranges l :
  ranges (fields_of [Person_Name; Person_Age]) l ↔ l = Name_Age ∨ l = Age_Name.
Proof.
  unfold ranges.
  assert (map_to_list (fields_of [Person_Name; Person_Age]) = Age_Name) as ->
    by (vm_compute; reflexivity).
  split.
  - intros Hl. symmetry in Hl. apply Permutation_length_2_inv in Hl. tauto.
  - intros [-> | ->]; [apply perm_swap | reflexivity].
Qed.

(** ** Value production *)

Section value.

Context {Rand : Type}.
Variable quick_Value :
  reflect_Type → Rand → Rand * Completion (option reflect_Value).
Implicit Types (f : Fuzz (Rand := Rand)) (G gen : Generator (Rand := Rand)).
Implicit Types (l : list (string * reflect_StructField)) (r : Rand) (n : Z).



(** C8.  Zero-value fallthrough: in a session of the invariant with the
    flag set and nothing bound, [Value] succeeds for every enumeration of the
    fields, every source and every size hint, consumes nothing of the source,
    and returns the record with each field at the zero value of its type. *)
Theorem Value_zero_fallthrough f :
  wf f → bindings f = ∅ → zeroValueFallthrough f = true →
  ∃ fs, typ f = Some (Struct fs)
    ∧ ∀ l r n,
        Value quick_Value f l r n
        = (f, r, Returns (VStruct (map (fun sf => (sf, Zero (Typ sf))) fs), None)).
Proof.
  intros [(fs & Htyp & _) _] Hnone Hflag. exists fs. split; [done|].
  intros l r n. unfold Value. rewrite Htyp. cbn [New_Elem].
  assert (∀ v, Value_range quick_Value l n f r v None = (f, r, v, None, None)) as ->.
  { induction l as [|[name field] rest IH]; intros v; cbn; [done|].
    by rewrite Hnone, lookup_empty, Hflag. }
  done.
Qed.



(** C3 (as the code has it).  For [Person] with nothing bound and the
    fallthrough flag off, a [Value] call enumerates the two fields as
    [Name], [Age] or as [Age], [Name]; two calls from the same seed that
    enumerate them in the same order return equal results; and the values
    are the successive draws of the facility in the order of the
    enumeration: the field visited first is drawn from the seeded source,
    the other from the source that draw has left. *)
Theorem Value_Person_by_order :
  (∀ l, ranges (fields (@person Rand)) l ↔ l = Name_Age ∨ l = Age_Name)
  ∧ (∀ l1 l2 r n,
       ranges (fields (@person Rand)) l1 → ranges (fields (@person Rand)) l2 →
       l1 = l2 →
       Value quick_Value person l1 r n = Value quick_Value person l2 r n)
  ∧ (∀ r n r1 r2 s a,
       quick_Value String_ r = (r1, Returns (Some (VString s))) →
       quick_Value Int r1 = (r2, Returns (Some (VInt a))) →
       Value quick_Value person Name_Age r n
       = (person, r2,
          Returns (VStruct [(Person_Name, VString s); (Person_Age, VInt a)], None)))
  ∧ (∀ r n r1 r2 s a,
       quick_Value Int r = (r1, Returns (Some (VInt a))) →
       quick_Value String_ r1 = (r2, Returns (Some (VString s))) →
       Value quick_Value person Age_Name r n
       = (person, r2,
          Returns (VStruct [(Person_Name, VString s); (Person_Age, VInt a)], None))).
Proof.
  split; [|split; [|split]].
  - apply person_ranges.
  - by intros l1 l2 r n _ _ ->.
  - intros r n r1 r2 s a Hname Hage.
    vm_compute. rewrite Hname. vm_compute. rewrite Hage. reflexivity.
  - intros r n r1 r2 s a Hage Hname.
    vm_compute. rewrite Hage. vm_compute. rewrite Hname. reflexivity.
Qed.

End value.

Lemma New_Person {Rand : Type} : New (Some Person) = (Some (@person Rand), None).
Proof. reflexivity. Qed.

Lemma person_wf {Rand : Type} : wf (@person Rand).
Proof. apply (New_wf (Some Person)), New_Person. Qed.

Lemma BindField_round_trip_witness :
  ∃ (inverse : option_ (Rand := Z)) f',
    Option person [BindField "Age" always42] = (f', Returns (inverse, None))
    ∧ bindings f' !! "Age" = Some always42
    ∧ Option f' [inverse] = (person, Returns (BindField "Age" always42, None))
    ∧ bindings (@person Z) !! "Age" = None.
Proof.
  apply (BindField_round_trip person [Person_Name; Person_Age] "Age" always42).
  - apply person_wf.
  - reflexivity.
  - cbn. apply elem_of_cons. right. apply elem_of_cons. by left.
  - reflexivity.
Defined.

Lemma BindField_outcomes_witness :
  Option (mkFuzz (Rand := Z) {["Age" := always42]} false (Some Person)
            (fields_of [Person_Name; Person_Age])) [BindField "Age" nilGenerator]
  = (mkFuzz {["Age" := always42]} false (Some Person)
       (fields_of [Person_Name; Person_Age]),
     Returns (nilOption, Some errDuplBinding))
  ∧ Option (@person Z) [BindField "Nickname" always42]
    = (person, Returns (nilOption, Some errUnmatchedBinding))
  ∧ Option (@person Z) [BindField "Age" always42]
    = (mkFuzz (<["Age" := always42]> ∅) false (Some Person)
         (fields_of [Person_Name; Person_Age]),
       Returns (UnbindField "Age", None)).
Proof.
  split; [|split].
  - apply (proj1 (BindField_outcomes (mkFuzz (Rand := Z) {["Age" := always42]} false
             (Some Person) (fields_of [Person_Name; Person_Age])) "Age" nilGenerator)).
    by exists always42.
  - apply (proj1 (proj2 (BindField_outcomes (@person Z) "Nickname" always42))
             [Person_Name; Person_Age]); [apply person_wf | reflexivity |].
    cbn. intros [?|[?|[]%elem_of_nil]%elem_of_cons]%elem_of_cons; discriminate.
  - apply (proj2 (proj2 (BindField_outcomes (@person Z) "Age" always42)));
      [reflexivity | by exists Person_Age].
Defined.

Lemma UnbindField_outcomes_witness :
  Option (@person Z) [UnbindField "Age"]
  = (person, Returns (nilOption, Some (errorString "fuzz: absent binding Age")))
  ∧ Option (mkFuzz (Rand := Z) {["Age" := always42]} false (Some Person)
              (fields_of [Person_Name; Person_Age])) [UnbindField "Age"]
    = (mkFuzz (delete "Age" {["Age" := always42]}) false (Some Person)
         (fields_of [Person_Name; Person_Age]),
       Returns (BindField "Age" always42, None)).
Proof.
  split.
  - apply (proj1 (UnbindField_outcomes (@person Z) "Age")). reflexivity.
  - exact (proj2 (UnbindField_outcomes (mkFuzz (Rand := Z) {["Age" := always42]} false
             (Some Person) (fields_of [Person_Name; Person_Age])) "Age") always42 eq_refl).
Defined.

Lemma Option_short_circuit_witness :
  Option (@person Z)
    ([UseZeroValueFallthrough true]
       ++ BindField "Nickname" always42 :: [BindField "Age" always42])
  = (mkFuzz ∅ true (Some Person) (fields_of [Person_Name; Person_Age]),
     Returns (nilOption, Some errUnmatchedBinding))
  ∧ Option (@person Z)
      ([UseZeroValueFallthrough true] ++ nilOption :: [BindField "Age" always42])
    = (mkFuzz ∅ true (Some Person) (fields_of [Person_Name; Person_Age]),
       Returns (UseZeroValueFallthrough false, Some nilDereference)).
Proof.
  split.
  - exact (proj1 (Option_short_circuit (@person Z) [UseZeroValueFallthrough true]
             (BindField "Nickname" always42) [BindField "Age" always42]
             _ _ eq_refl) _ _ _ eq_refl).
  - exact (proj2 (Option_short_circuit (@person Z) [UseZeroValueFallthrough true]
             nilOption [BindField "Age" always42] _ _ eq_refl) _ _ eq_refl).
Defined.

(** C1 as stated fails: after [UseZeroValueFallthrough(true)] has been
    applied, the failing [BindField("Nickname", _)] makes [Option] return the
    nil option, not the inverse [UseZeroValueFallthrough(false)] of the
    operation applied last. *)
Lemma Option_failure_loses_last_inverse :
  ¬ (∀ (f : Fuzz (Rand := Z)) pre opt post f1 p1 f2 q e,
       pre ≠ [] →
       Option f pre = (f1, Returns (p1, None)) →
       apply opt f1 = (f2, Returns (q, Some e)) →
       Option f (pre ++ opt :: post) = (f1, Returns (p1, Some e))).
Proof.
  intros Hclaim.
  specialize (Hclaim person [UseZeroValueFallthrough true]
    (BindField "Nickname" always42) [BindField "Age" always42]
    _ _ _ _ _ ltac:(done) eq_refl eq_refl).
  discriminate Hclaim.
Qed.

Lemma Value_zero_fallthrough_witness :
  ∃ fs, Some Person = Some (Struct fs)
    ∧ ∀ l (r : Z) n,
        Value counter_quick_Value
          (mkFuzz ∅ true (Some Person) (fields_of [Person_Name; Person_Age])) l r n
        = (mkFuzz ∅ true (Some Person) (fields_of [Person_Name; Person_Age]), r,
           Returns (VStruct (map (fun sf => (sf, Zero (Typ sf))) fs), None)).
Proof.
  apply (Value_zero_fallthrough counter_quick_Value
           (mkFuzz ∅ true (Some Person) (fields_of [Person_Name; Person_Age]))).
  - apply (Option_wf person [UseZeroValueFallthrough true] _
             (Returns (UseZeroValueFallthrough false, None)) person_wf).
    reflexivity.
  - reflexivity.
  - reflexivity.
Defined.




Lemma Value_Person_by_order_witness :
  Value counter_quick_Value person Name_Age 0%Z 3
  = Value counter_quick_Value person Name_Age 0%Z 3
  ∧ Value counter_quick_Value person Name_Age 0%Z 3
    = (person, 2%Z,
       Returns (VStruct [(Person_Name, VString "0"); (Person_Age, VInt 1)], None))
  ∧ Value counter_quick_Value person Age_Name 0%Z 3
    = (person, 2%Z,
       Returns (VStruct [(Person_Name, VString "1"); (Person_Age, VInt 0)], None)).
Proof.
  pose proof (@Value_Person_by_order Z counter_quick_Value)
    as (Horders & Hsame & Hname_age & Hage_name).
  split; [|split].
  - apply Hsame; [apply Horders; by left | apply Horders; by left | reflexivity].
  - apply (Hname_age 0%Z 3%Z 1%Z 2%Z "0" 1%Z); reflexivity.
  - apply (Hage_name 0%Z 3%Z 1%Z 2%Z "1" 0%Z); reflexivity.
Defined.

(** C3 as stated fails: from the seed 0 the call that visits [Name] first
    returns [Name = "0"], [Age = 1], the call that visits [Age] first returns
    [Age = 0], [Name = "1"]; both enumerations are enumerations of the field
    table. *)
Lemma Value_Person_depends_on_order :
  ¬ (∀ (r : Z) n res1 res2 v1 e1 v2 e2,
       Value_returns counter_quick_Value person r n res1 →
       Value_returns counter_quick_Value person r n res2 →
       res1.2 = Returns (v1, e1) → res2.2 = Returns (v2, e2) →
       FieldByName v1 "Name" = FieldByName v2 "Name"
       ∧ FieldByName v1 "Age" = FieldByName v2 "Age").
Proof.
  intros Hclaim.
  destruct (Hclaim 0%Z 3%Z
              (Value counter_quick_Value person Name_Age 0%Z 3)
              (Value counter_quick_Value person Age_Name 0%Z 3)
              (VStruct [(Person_Name, VString "0"); (Person_Age, VInt 1)]) None
              (VStruct [(Person_Name, VString "1"); (Person_Age, VInt 0)]) None)
    as [Hname _].
  - exists Name_Age. split; [apply person_ranges; by left | reflexivity].
  - exists Age_Name. split; [apply person_ranges; by right | reflexivity].
  - reflexivity.
  - reflexivity.
  - discriminate Hname.
Qed.

(** ** The bulk adaptor *)

(** C2 (what the code does).  [QuickValues] compares [len(v)] with itself,
    so no mismatch of lengths is ever reported.  With fewer generators than
    slots it returns normally, the slots beyond the generators untouched;
    with more generators than slots it fills every slot, calls the next
    generator and only then panics, with the index-out-of-range error of the
    runtime. *)
Theorem QuickValues_ignores_length_mismatch :
  (∀ (v : list reflect_Value) (r : Z), QuickValues [] v r = (v, r, Returns tt))
  ∧ QuickValues [always42] [Invalid; Invalid] 7%Z
    = ([VInt 42; Invalid], 7%Z, Returns tt)
  ∧ QuickValues [always42; always42] [Invalid] 7%Z
    = ([VInt 42], 7%Z,
       Panics (PError (runtime_Error "index out of range [1] with length 1"))).
Proof.
  split; [|split].
  - intros v r. unfold QuickValues. by rewrite Nat.eqb_refl.
  - reflexivity.
  - reflexivity.
Qed.

(** ** More on the configuration protocol *)

Section options_compose.

Context {Rand : Type}.
Implicit Types (f : Fuzz (Rand := Rand)) (G gen : Generator (Rand := Rand)).
Implicit Types (opt : option_ (Rand := Rand)) (name F : string).

Lemma Option_single_inv opt f f' inverse :
  Option f [opt] = (f', Returns (inverse, None)) →
  apply opt f = (f', Returns (inverse, None)).
Proof.
  intros Hopt%Option_succeeds_inv. cbn in Hopt.
  destruct (apply opt f) as [f1 [[prev [e|]]|r]]; [done| |done].
  by injection Hopt as -> ->.
Qed.

(** The inverse an operation returns undoes it, and the inverse of the
    inverse is the operation again. *)
Lemma apply_inverse opt f f' inverse :
  wf f → apply opt f = (f', Returns (inverse, None)) →
  apply inverse f' = (f, Returns (opt, None)).
Proof.
  intros Hwf. destruct opt as [|on|name gen|name]; cbn [apply].
  - done.
  - intros [= <- <-]. cbn. by destruct f.
  - destruct (bindings f !! name) eqn:Hfree; [done|].
    destruct (fields f !! name); [|done]. intros [= <- <-]. cbn.
    rewrite lookup_insert_eq, delete_insert_id by done. by destruct f.
  - destruct (bindings f !! name) as [gen|] eqn:Hbound; [|done].
    intros [= <- <-]. cbn. rewrite lookup_delete_eq.
    assert (is_Some (fields f !! name)) as [sf ->].
    { apply elem_of_dom, (wf_bindings _ Hwf), elem_of_dom. by exists gen. }
    rewrite insert_delete_id by done. by destruct f.
Qed.

Lemma Option_range_app_inv pre : ∀ rest f prev f' prev',
  Option_range (pre ++ rest) f prev None = (f', prev', None, None) →
  ∃ f1 p1, Option_range pre f prev None = (f1, p1, None, None)
           ∧ Option_range rest f1 p1 None = (f', prev', None, None).
Proof.
  induction pre as [|opt pre IH]; intros rest f prev f' prev'; cbn.
  - intros Hrest. by exists f, prev.
  - destruct (apply opt f) as [f1 [[prev1 [e|]]|r]]; [done| |done].
    apply IH.
Qed.

Lemma Option_range_succeeds f opts f1 p1 :
  Option_range opts f nilOption None = (f1, p1, None, None) →
  Option f opts = (f1, Returns (p1, None)).
Proof. unfold Option. by intros ->. Qed.

Lemma Option_range_typ_fields opts : ∀ f prev err f' prev' err' p,
  Option_range opts f prev err = (f', prev', err', p) →
  typ f' = typ f ∧ fields f' = fields f.
Proof.
  induction opts as [|opt opts IH]; intros f prev err f' prev' err' p; cbn.
  - by intros [= <- _ _ _].
  - destruct (apply opt f) as [f1 c] eqn:Happly.
    destruct (apply_typ_fields _ _ _ _ Happly) as [<- <-].
    destruct c as [[prev1 [e|]]|r].
    + by intros [= <- _ _ _].
    + apply IH.
    + by intros [= <- _ _ _].
Qed.

(** X1.  [UseZeroValueFallthrough(on)] always succeeds: it sets the flag
    to [on], leaves registry, type handle and field table alone, and returns
    the operation that sets the flag back; applying that one restores the
    session and returns [UseZeroValueFallthrough(on)] again. *)
Theorem UseZeroValueFallthrough_round_trip f on :
  ∃ f',
    Option f [UseZeroValueFallthrough on]
    = (f', Returns (UseZeroValueFallthrough (zeroValueFallthrough f), None))
    ∧ zeroValueFallthrough f' = on
    ∧ bindings f' = bindings f ∧ typ f' = typ f ∧ fields f' = fields f
    ∧ Option f' [UseZeroValueFallthrough (zeroValueFallthrough f)]
      = (f, Returns (UseZeroValueFallthrough on, None)).
Proof.
  exists (mkFuzz (bindings f) on (typ f) (fields f)).
  repeat split. apply Option_single. cbn. by destruct f.
Qed.

(** X2.  In a session of the invariant, the inverse returned by any
    operation that succeeded restores the session exactly when it is
    applied, and returns the operation it undid. *)
Theorem Option_inverse_restores f opt f' inverse :
  wf f →
  Option f [opt] = (f', Returns (inverse, None)) →
  Option f' [inverse] = (f, Returns (opt, None)).
Proof.
  intros Hwf Hopt%Option_single_inv. apply Option_single.
  by apply apply_inverse.
Qed.

(** X3.  The inverse a successful call with several operations returns
    undoes the last of them only: applied, it gives the session the
    operations before the last had built. *)
Theorem Option_inverse_undoes_last_only f pre opt f' inverse :
  wf f →
  Option f (pre ++ [opt]) = (f', Returns (inverse, None)) →
  ∃ f1 p1,
    Option f pre = (f1, Returns (p1, None))
    ∧ Option f' [inverse] = (f1, Returns (opt, None)).
Proof.
  intros Hwf Hall%Option_succeeds_inv.
  apply Option_range_app_inv in Hall as (f1 & p1 & Hpre & Hlast).
  exists f1, p1. split; [by apply Option_range_succeeds|].
  apply Option_single. apply apply_inverse.
  - by eapply Option_range_wf.
  - cbn in Hlast. destruct (apply opt f1) as [f2 [[prev [e|]]|r]]; [done| |done].
    by injection Hlast as -> ->.
Qed.

(** X4.  One call with the operations [a] and then [b] leaves the session
    that a successful call with [a] followed by a call with [b] leaves; when
    [b] is not empty and holds no nil option, the two also return the
    same. *)
Theorem Option_app f a b f1 p1 :
  Option f a = (f1, Returns (p1, None)) →
  (Option f (a ++ b)).1 = (Option f1 b).1
  ∧ (b ≠ [] → nilOption ∉ b → Option f (a ++ b) = Option f1 b).
Proof.
  intros Ha%Option_succeeds_inv. unfold Option.
  rewrite (Option_range_app _ _ _ _ _ _ Ha).
  destruct b as [|opt b]; [by split|]. cbn [Option_range].
  destruct (apply opt f1) as [f2 [[prev [e|]]|r]] eqn:Happly.
  - by split.
  - by split.
  - split; [done|]. intros _ Hnil.
    destruct (apply_panic _ _ _ _ Happly) as [_ ->].
    destruct Hnil. by left.
Qed.

(** X5.  [Option] keeps the invariant of sessions, whatever the operations
    and whether they succeed: the type handle and the field table are never
    changed, and only fields of the table are ever bound. *)
Theorem Option_keeps_invariant f opts f' c :
  wf f → Option f opts = (f', c) →
  wf f' ∧ typ f' = typ f ∧ fields f' = fields f
  ∧ dom (bindings f') ⊆ dom (fields f).
Proof.
  intros Hwf Hopt. pose proof (Option_wf _ _ _ _ Hwf Hopt) as Hwf'.
  assert (typ f' = typ f ∧ fields f' = fields f) as [Htyp Hfields].
  { unfold Option in Hopt.
    destruct (Option_range opts f nilOption None) as [[[f1 prev] err] p] eqn:Hrange.
    apply Option_range_typ_fields in Hrange.
    destruct p; by injection Hopt as <- _. }
  repeat split; [apply Hwf'..|done|done|].
  rewrite <- Hfields. apply Hwf'.
Qed.

(** X6.  [MustOption] does not roll back: when a prefix of the operations
    succeeds and the next one fails, it panics with the error of that
    operation (the error a recovered panic was turned into, if the
    operation panicked), and the session keeps what the prefix did. *)
Theorem MustOption_panics_after_prefix f pre opt post f1 p1 :
  Option f pre = (f1, Returns (p1, None)) →
  (∀ f2 q e, apply opt f1 = (f2, Returns (q, Some e)) →
     MustOption f (pre ++ opt :: post) = (f1, Panics (PError e)))
  ∧ (∀ f2 r, apply opt f1 = (f2, Panics r) →
     MustOption f (pre ++ opt :: post)
     = (f1, Panics (PError (Option_recovered r)))).
Proof.
  intros Hpre%Option_succeeds_inv. split.
  - intros f2 q e Happly. destruct (apply_failure _ _ _ _ _ Happly) as [-> ->].
    unfold MustOption, Option.
    rewrite (Option_range_app _ _ _ _ _ _ Hpre). cbn [Option_range].
    by rewrite Happly.
  - intros f2 r Happly. destruct (apply_panic _ _ _ _ Happly) as [-> _].
    unfold MustOption, Option.
    rewrite (Option_range_app _ _ _ _ _ _ Hpre). cbn [Option_range].
    by rewrite Happly.
Qed.

End options_compose.

(** ** Construction *)

Section construction.

Context {Rand : Type}.

Lemma fields_of_fold_fresh (fs : list reflect_StructField) name :
  name ∉ Name <$> fs →
  ∀ m : gmap string reflect_StructField,
    foldl (fun m sf => <[Name sf := sf]> m) m fs !! name = m !! name.
Proof.
  induction fs as [|sf fs IH]; cbn; [done|].
  intros Hfresh m. apply not_elem_of_cons in Hfresh as [Hne Hfresh].
  rewrite (IH Hfresh). by apply lookup_insert_ne.
Qed.

(** With pairwise different field names every field is found under its
    name. *)
Lemma fields_of_lookup (fs : list reflect_StructField) sf :
  NoDup (Name <$> fs) → sf ∈ fs → fields_of fs !! Name sf = Some sf.
Proof.
  unfold fields_of. generalize (∅ : gmap string reflect_StructField).
  induction fs as [|x fs IH]; intros m Hnodup Hin; cbn.
  - by apply elem_of_nil in Hin.
  - cbn in Hnodup. apply NoDup_cons in Hnodup as [Hfresh Hnodup].
    apply elem_of_cons in Hin as [->|Hin].
    + rewrite (fields_of_fold_fresh _ _ Hfresh). apply lookup_insert_eq.
    + by apply IH.
Qed.

(** X8.  [New] fails with [errNotStruct], and returns no session, exactly
    for the nil type and the types that are no structs.  For a struct type it
    returns a session of the invariant with nothing bound and the fallthrough
    flag off, whose field table has exactly the names of the fields of the
    type and, when these names are pairwise different, maps each name to its
    field. *)
Theorem New_outcomes (t : option reflect_Type) :
  (New (Rand := Rand) t = (None, Some errNotStruct)
   ↔ ∀ fs, t ≠ Some (Struct fs))
  ∧ (∀ fs, t = Some (Struct fs) →
     ∃ f : Fuzz (Rand := Rand),
       New t = (Some f, None) ∧ wf f
       ∧ bindings f = ∅ ∧ zeroValueFallthrough f = false ∧ typ f = t
       ∧ (∀ name, is_Some (fields f !! name) ↔ name ∈ Name <$> fs)
       ∧ (NoDup (Name <$> fs) → ∀ sf, sf ∈ fs → fields f !! Name sf = Some sf)).
Proof.
  split.
  - destruct t as [[| | | |fs]|]; cbn; split; try done.
    intros Hno. by destruct (Hno fs).
  - intros fs ->. exists (mkFuzz ∅ false (Some (Struct fs)) (fields_of fs)).
    split; [done|]. split; [by apply (New_wf (Some (Struct fs)))|].
    repeat split; cbn.
    + by intros ?%fields_of_is_Some.
    + by intros ?%fields_of_is_Some.
    + intros Hnodup sf Hin. by apply fields_of_lookup.
Qed.

(** X9.  [Must(New(t))] returns a session, one of the invariant, exactly
    when [t] is a struct type; otherwise it panics with [errNotStruct]. *)
Theorem Must_New (t : option reflect_Type) :
  ((∃ fs, t = Some (Struct fs))
   ↔ ∃ f : Fuzz (Rand := Rand),
       Must (New (Rand := Rand) t).1 (New (Rand := Rand) t).2 = Returns (Some f)
       ∧ wf f)
  ∧ ((∀ fs, t ≠ Some (Struct fs))
     ↔ Must (New (Rand := Rand) t).1 (New (Rand := Rand) t).2
       = Panics (PError errNotStruct)).
Proof.
  destruct t as [[| | | |fs]|]; cbn.
  1-4, 6: split; split; try done; try (by intros [fs [=]]); by intros (f & [=] & _).
  split; split.
  - intros _. eexists. split; [done|]. by apply (New_wf (Some (Struct fs))).
  - intros _. by exists fs.
  - intros Hno. by destruct (Hno fs).
  - done.
Qed.

End construction.

(** ** More on the model of reflect *)

Section reflect_typing.

Implicit Types (fvs : list (reflect_StructField * reflect_Value)).
Implicit Types (v elem : reflect_Value) (name : string).

Lemma TypeOf_Zero (t : reflect_Type) : TypeOf (Zero t) = Some t.
Proof.
  destruct t as [| | | |fs]; cbn; try done.
  do 2 f_equal. induction fs as [|sf fs IH]; cbn; [done|]. by rewrite IH.
Qed.

Lemma Zero_fields_typed (fs : list reflect_StructField) :
  Forall (fun p => TypeOf p.2 = Some (Typ p.1))
    (map (fun sf => (sf, Zero (Typ sf))) fs).
Proof.
  induction fs as [|sf fs IH]; cbn; constructor; [apply TypeOf_Zero | done].
Qed.

Lemma Zero_fields_fst (fs : list reflect_StructField) :
  (map (fun sf => (sf, Zero (Typ sf))) fs).*1 = fs.
Proof. induction fs as [|sf fs IH]; cbn; [done|]. by rewrite IH. Qed.

(** [Set] keeps the descriptors of the struct, and stores only a value of
    the type of the field. *)
Lemma setField_fst fvs name elem fvs' :
  setField fvs name elem = Returns fvs' → fvs'.*1 = fvs.*1.
Proof.
  revert fvs'. induction fvs as [|[sf old] rest IH]; intros fvs'; cbn; [done|].
  case_bool_decide.
  - destruct (negb _); [done|]. destruct (TypeOf elem) as [t|]; [|done].
    destruct (isReadOnly elem); [done|].
    destruct (reflect_Type_eqb _ _); [|done]. by intros [= <-].
  - destruct (setField rest name elem) as [rest'|r]; [|done].
    intros [= <-]. cbn. by rewrite (IH rest').
Qed.

Lemma setField_typed fvs name elem fvs' :
  Forall (fun p => TypeOf p.2 = Some (Typ p.1)) fvs →
  setField fvs name elem = Returns fvs' →
  Forall (fun p => TypeOf p.2 = Some (Typ p.1)) fvs'.
Proof.
  intros Htyped. revert fvs'.
  induction Htyped as [|[sf old] rest Hold Hrest IH]; intros fvs'; cbn; [done|].
  case_bool_decide.
  - destruct (negb _); [done|]. destruct (TypeOf elem) as [t|] eqn:Helem; [|done].
    destruct (isReadOnly elem); [done|].
    destruct (reflect_Type_eqb t (Typ sf)) eqn:Heqb; [|done].
    intros [= <-]. constructor; [|done]. cbn.
    by rewrite Helem, (reflect_Type_eqb_eq _ _ Heqb).
  - destruct (setField rest name elem) as [rest'|r]; [|done].
    intros [= <-]. constructor; [done|]. by apply IH.
Qed.




End reflect_typing.

(** ** More on value production *)

Section value_more.

Context {Rand : Type}.
Variable quick_Value :
  reflect_Type → Rand → Rand * Completion (option reflect_Value).
Implicit Types (f : Fuzz (Rand := Rand)) (G gen : Generator (Rand := Rand)).
Implicit Types (l : list (string * reflect_StructField)) (r : Rand) (n : Z).

(** What [Value] returns is the value its loop leaves. *)
Lemma Value_inv f l r n t f' r' v err :
  typ f = Some t →
  Value quick_Value f l r n = (f', r', Returns (v, err)) →
  ∃ err0 p, Value_range quick_Value l n f r (Zero t) None = (f', r', v, err0, p)
            ∧ err = match p with
                    | Some q => Some (Value_recovered q)
                    | None => err0
                    end.
Proof.
  intros Htyp. unfold Value. rewrite Htyp. cbn [New_Elem].
  destruct (Value_range quick_Value l n f r (Zero t) None)
    as [[[[f1 r1] v1] err1] [q|]]; intros [= <- <- <- <-].
  - by exists err1, (Some q).
  - by exists err1, None.
Qed.

(** The loop of [Value] keeps the record a record of its type. *)
Lemma Value_range_typed l n f (fs : list reflect_StructField) :
  ∀ r fvs err f' r' v' err' p,
    fvs.*1 = fs →
    Forall (fun p => TypeOf p.2 = Some (Typ p.1)) fvs →
    Value_range quick_Value l n f r (VStruct fvs) err = (f', r', v', err', p) →
    ∃ fvs', v' = VStruct fvs' ∧ fvs'.*1 = fs
            ∧ Forall (fun p => TypeOf p.2 = Some (Typ p.1)) fvs'.
Proof.
  induction l as [|[name field] rest IH];
    intros r fvs err f' r' v' err' p Hfst Htyped; cbn [Value_range].
  - intros [= _ _ <- _ _]. by exists fvs.
  - assert (∀ r1 elem,
              match FieldByName_Set (VStruct fvs) name elem with
              | Returns v1 => Value_range quick_Value rest n f r1 v1 err
              | Panics q => (f, r1, VStruct fvs, err, Some q)
              end = (f', r', v', err', p) →
              ∃ fvs', v' = VStruct fvs' ∧ fvs'.*1 = fs
                      ∧ Forall (fun p => TypeOf p.2 = Some (Typ p.1)) fvs')
      as Hset.
    { intros r1 elem. cbn [FieldByName_Set unwrap isReadOnly].
      destruct (setField fvs name elem) as [fvs1|q] eqn:Hfvs1.
      - apply IH.
        + by rewrite (setField_fst _ _ _ _ Hfvs1).
        + by eapply setField_typed.
      - intros [= _ _ <- _ _]. by exists fvs. }
    destruct (bindings f !! name) as [gen|].
    + destruct (Generate gen r n) as [r1 [[elem [e|]]|q]].
      * intros [= _ _ <- _ _]. by exists fvs.
      * apply Hset.
      * intros [= _ _ <- _ _]. by exists fvs.
    + destruct (zeroValueFallthrough f); [by apply IH|].
      destruct (quick_Value (Typ field) r) as [r1 [[elem|]|q]].
      * apply Hset.
      * intros [= _ _ <- _ _]. by exists fvs.
      * intros [= _ _ <- _ _]. by exists fvs.
Qed.

(** X10.  Whatever the generators and the facility return, and whether
    [Value] succeeds or fails, the record it returns for a session over a
    struct type is a value of that type, and each of its fields holds a value
    of the declared type of the field. *)
Theorem Value_result_well_typed f (fs : list reflect_StructField) l r n f' r' v err :
  typ f = Some (Struct fs) →
  Value quick_Value f l r n = (f', r', Returns (v, err)) →
  TypeOf v = Some (Struct fs)
  ∧ ∃ fvs, v = VStruct fvs ∧ fvs.*1 = fs
           ∧ Forall (fun p => TypeOf p.2 = Some (Typ p.1)) fvs.
Proof.
  intros Htyp Hvalue.
  destruct (Value_inv _ _ _ _ _ _ _ _ _ Htyp Hvalue) as (err0 & p & Hrange & _).
  cbn [Zero] in Hrange.
  apply Value_range_typed with (fs := fs) in Hrange
    as (fvs & -> & Hfst & Htyped).
  - split; [|by exists fvs]. cbn. by rewrite <- Hfst.
  - apply Zero_fields_fst.
  - apply Zero_fields_typed.
Qed.












End value_more.

(** ** More on the adaptors *)

Section adaptors.

Context {Rand : Type}.
Implicit Types (g : list (Generator (Rand := Rand))) (v : list reflect_Value).
Implicit Types (r : Rand) (i j : nat).

Lemma QuickValues_unfold g v r : QuickValues g v r = QuickValues_range 0 g v r.
Proof. unfold QuickValues. by rewrite Nat.eqb_refl. Qed.

(** The loop writes the slots from [i] up to the number of generators it
    runs, and no other; the slice keeps its length. *)
Lemma QuickValues_range_frame g : ∀ i v r v' r' c,
  QuickValues_range i g v r = (v', r', c) →
  length v' = length v
  ∧ ∀ j, (j < i ∨ i + length g ≤ j)%nat → v' !! j = v !! j.
Proof.
  induction g as [|gi g IH]; intros i v r v' r' c; cbn [QuickValues_range].
  - by intros [= <- _ _].
  - destruct (Generate gi r 0) as [r1 [[x err]|p]]; [|by intros [= <- _ _]].
    case_decide as Hi; [|by intros [= <- _ _]].
    assert (length (<[i := x]> v) = length v
            ∧ ∀ j, (j < i ∨ i + length (gi :: g) ≤ j)%nat →
                   <[i := x]> v !! j = v !! j) as [Hlen Hother].
    { split; [apply length_insert|]. intros j Hj.
      apply list_lookup_insert_ne. cbn in Hj. lia. }
    destruct err as [e|]; [by intros [= <- _ _]|].
    intros [Hlen' Hother']%IH. split; [congruence|].
    intros j Hj. rewrite Hother', Hother; [done|done|]. cbn in Hj. lia.
Qed.

(** X15.  [QuickValues] never resizes the slice of slots and never writes
    a slot that has no generator, however the call ends. *)
Theorem QuickValues_frame g v r v' r' c :
  QuickValues g v r = (v', r', c) →
  length v' = length v
  ∧ ∀ j, (length g ≤ j)%nat → v' !! j = v !! j.
Proof.
  rewrite QuickValues_unfold. intros [Hlen Hother]%QuickValues_range_frame.
  split; [done|]. intros j Hj. apply Hother. right. by cbn.
Qed.

Lemma QuickValues_range_succeeding g : ∀ i v r,
  Forall (fun gi => ∀ r n, ∃ r' x, Generate gi r n = (r', Returns (x, None))) g →
  (i ≤ length v)%nat →
  ∃ v' r',
    QuickValues_range i g v r
    = (v', r',
       if decide (i + length g ≤ length v)%nat then Returns tt
       else Panics (PError (runtime_Error
              ("index out of range [" ++ pretty (length v) ++ "] with length "
               ++ pretty (length v))))).
Proof.
  induction g as [|gi g IH]; intros i v r Hgood Hi; cbn [QuickValues_range].
  - exists v, r. rewrite decide_True; [done|]. cbn. lia.
  - apply Forall_cons in Hgood as [Hgi Hgood].
    destruct (Hgi r 0%Z) as (r1 & x & ->).
    destruct (decide (i < length v)%nat) as [Hlt|Hge].
    + destruct (IH (S i) (<[i := x]> v) r1 Hgood) as (v' & r' & ->).
      { rewrite length_insert. lia. }
      exists v', r'. rewrite length_insert. cbn [length].
      destruct (decide (S i + length g ≤ length v)%nat);
        [rewrite decide_True by lia | rewrite decide_False by lia]; done.
    + exists v, r1. assert (i = length v) as -> by lia.
      rewrite decide_False; [done|]. cbn. lia.
Qed.

(** X16.  With generators that all return a value and no error,
    [QuickValues] returns normally exactly when there are at most as many
    generators as slots; with more generators it panics with the index
    error of the runtime at the first index past the slots, never with the
    message about incongruent signatures. *)
Theorem QuickValues_returns_iff g v r :
  Forall (fun gi => ∀ r n, ∃ r' x, Generate gi r n = (r', Returns (x, None))) g →
  ((∃ v' r', QuickValues g v r = (v', r', Returns tt))
   ↔ (length g ≤ length v)%nat)
  ∧ ((length v < length g)%nat →
     ∃ v' r',
       QuickValues g v r
       = (v', r',
          Panics (PError (runtime_Error
            ("index out of range [" ++ pretty (length v) ++ "] with length "
             ++ pretty (length v)))))).
Proof.
  intros Hgood. rewrite QuickValues_unfold.
  destruct (QuickValues_range_succeeding g 0 v r Hgood) as (v' & r' & Hrun);
    [lia|].
  rewrite Hrun. cbn [Nat.add]. split; [split|].
  - intros (v1 & r1 & Heq). case_decide; [done|]. by injection Heq.
  - intros Hle. exists v', r'. by rewrite decide_True.
  - intros Hlt. exists v', r'. rewrite decide_False; [done|lia].
Qed.

Lemma QuickValues_range_overwrites g : ∀ i v1 v2 r v' r',
  length v1 = length v2 →
  (∀ j, (j < i)%nat → v1 !! j = v2 !! j) →
  (i + length g = length v1)%nat →
  QuickValues_range i g v1 r = (v', r', Returns tt) →
  QuickValues_range i g v2 r = (v', r', Returns tt).
Proof.
  induction g as [|gi g IH]; intros i v1 v2 r v' r' Hlen Hagree Hfull;
    cbn [QuickValues_range].
  - intros [= <- <-]. f_equal. f_equal. symmetry. apply list_eq. intros j.
    destruct (decide (j < i)%nat) as [Hj|Hj]; [by apply Hagree|].
    cbn in Hfull. rewrite !lookup_ge_None_2; [done|lia..].
  - destruct (Generate gi r 0) as [r1 [[x err]|p]]; [|done].
    cbn in Hfull. rewrite !decide_True by lia.
    destruct err as [e|]; [done|]. apply IH.
    + by rewrite !length_insert.
    + intros j Hj. destruct (decide (j = i)) as [->|Hne].
      * rewrite !list_lookup_insert_eq; [done|lia..].
      * rewrite !list_lookup_insert_ne by done. apply Hagree. lia.
    + rewrite length_insert. lia.
Qed.

(** X17.  With as many generators as slots, a call of [QuickValues] that
    returns normally has overwritten every slot: the slice it leaves does not
    depend on what the slots held before. *)
Theorem QuickValues_overwrites_all_slots g v1 v2 r v' r' :
  length v1 = length g → length v2 = length g →
  QuickValues g v1 r = (v', r', Returns tt) →
  QuickValues g v2 r = (v', r', Returns tt).
Proof.
  intros Hv1 Hv2. rewrite !QuickValues_unfold.
  apply QuickValues_range_overwrites; [congruence| |by cbn].
  intros j Hj. lia.
Qed.

(** X18.  The two adaptors agree on a generator: where
    [QuickGenerator(g).Generate(r, 0)] returns a value, [QuickValues(g)]
    stores that value in its one slot and returns; where the first panics,
    the second panics with the same payload; and both leave the source in
    the same state. *)
Theorem QuickGenerator_QuickValues_agree (gi : Generator (Rand := Rand)) x r :
  match QuickGenerator gi r 0 with
  | (r', Returns y) => QuickValues [gi] [x] r = ([y], r', Returns tt)
  | (r', Panics p) => ∃ y, QuickValues [gi] [x] r = ([y], r', Panics p)
  end.
Proof.
  rewrite QuickValues_unfold. unfold QuickGenerator. cbn [QuickValues_range].
  destruct (Generate gi r 0) as [r1 [[y [e|]]|p]]; cbn.
  - by exists y.
  - done.
  - by exists x.
Qed.

End adaptors.

(** ** The extra properties at work *)

Lemma person_Age_42_wf {Rand : Type} b : wf (@person_Age_42 Rand b).
Proof.
  apply (Option_wf person [UseZeroValueFallthrough b; BindField "Age" always42]
           _ (Returns (UnbindField "Age", None)) person_wf).
  reflexivity.
Qed.


Lemma Option_inverse_restores_witness :
  Option (mkFuzz (Rand := Z) (delete "Age" {["Age" := always42]}) false (Some Person)
            (fields_of [Person_Name; Person_Age]))
    [BindField "Age" always42]
  = (person_Age_42 false, Returns (UnbindField "Age", None)).
Proof.
  apply (Option_inverse_restores (person_Age_42 false) (UnbindField "Age")).
  - apply person_Age_42_wf.
  - reflexivity.
Defined.

Lemma Option_inverse_undoes_last_only_witness :
  ∃ (f1 : Fuzz (Rand := Z)) p1,
    Option person [UseZeroValueFallthrough true] = (f1, Returns (p1, None))
    ∧ Option (person_Age_42 true) [UnbindField "Age"]
      = (f1, Returns (BindField "Age" always42, None)).
Proof.
  apply (Option_inverse_undoes_last_only (@person Z) [UseZeroValueFallthrough true]
           (BindField "Age" always42)).
  - apply person_wf.
  - reflexivity.
Defined.

Lemma Option_app_witness :
  (Option (@person Z)
     ([UseZeroValueFallthrough true] ++ [BindField "Age" always42])).1
  = (Option (mkFuzz (Rand := Z) ∅ true (Some Person)
               (fields_of [Person_Name; Person_Age]))
       [BindField "Age" always42]).1
  ∧ Option (@person Z)
      ([UseZeroValueFallthrough true] ++ [BindField "Age" always42])
    = Option (mkFuzz (Rand := Z) ∅ true (Some Person)
                (fields_of [Person_Name; Person_Age]))
        [BindField "Age" always42].
Proof.
  destruct (Option_app (@person Z) [UseZeroValueFallthrough true]
              [BindField "Age" always42] _ _ eq_refl) as [Hsession Hsame].
  split; [exact Hsession|]. apply Hsame; [done|].
  intros [=]%list_elem_of_singleton.
Defined.

Lemma Option_keeps_invariant_witness :
  wf (person_Age_42 (Rand := Z) false)
  ∧ typ (person_Age_42 (Rand := Z) false) = typ (@person Z)
  ∧ fields (person_Age_42 (Rand := Z) false) = fields (@person Z)
  ∧ dom (bindings (person_Age_42 (Rand := Z) false)) ⊆ dom (fields (@person Z)).
Proof.
  apply (Option_keeps_invariant (@person Z)
           [BindField "Age" always42; BindField "Nickname" always42]
           _ (Returns (nilOption, Some errUnmatchedBinding)) person_wf).
  reflexivity.
Defined.

Lemma MustOption_panics_after_prefix_witness :
  MustOption (@person Z)
    ([UseZeroValueFallthrough true]
       ++ BindField "Nickname" always42 :: [BindField "Age" always42])
  = (mkFuzz ∅ true (Some Person) (fields_of [Person_Name; Person_Age]),
     Panics (PError errUnmatchedBinding))
  ∧ MustOption (@person Z)
      ([UseZeroValueFallthrough true] ++ nilOption :: [BindField "Age" always42])
    = (mkFuzz ∅ true (Some Person) (fields_of [Person_Name; Person_Age]),
       Panics (PError nilDereference)).
Proof.
  split.
  - exact (proj1 (MustOption_panics_after_prefix (@person Z)
             [UseZeroValueFallthrough true] (BindField "Nickname" always42)
             [BindField "Age" always42] _ _ eq_refl) _ _ _ eq_refl).
  - exact (proj2 (MustOption_panics_after_prefix (@person Z)
             [UseZeroValueFallthrough true] nilOption
             [BindField "Age" always42] _ _ eq_refl) _ _ eq_refl).
Defined.

Lemma New_outcomes_witness :
  New (Rand := Z) (Some Int) = (None, Some errNotStruct)
  ∧ ∃ f : Fuzz (Rand := Z),
      New (Some Account) = (Some f, None) ∧ wf f
      ∧ bindings f = ∅ ∧ zeroValueFallthrough f = false ∧ typ f = Some Account
      ∧ (∀ name, is_Some (fields f !! name)
                 ↔ name ∈ Name <$> [Account_Owner; Account_balance])
      ∧ (NoDup (Name <$> [Account_Owner; Account_balance]) →
         ∀ sf, sf ∈ [Account_Owner; Account_balance] →
               fields f !! Name sf = Some sf).
Proof.
  split.
  - apply (proj1 (New_outcomes (Rand := Z) (Some Int))). by intros fs.
  - apply (proj2 (New_outcomes (Rand := Z) (Some Account))
             [Account_Owner; Account_balance]).
    reflexivity.
Defined.

Lemma Must_New_witness :
  (∃ f : Fuzz (Rand := Z),
     Must (New (Rand := Z) (Some Person)).1 (New (Rand := Z) (Some Person)).2
     = Returns (Some f) ∧ wf f)
  ∧ Must (New (Rand := Z) None).1 (New (Rand := Z) None).2
    = Panics (PError errNotStruct).
Proof.
  split.
  - apply (proj1 (Must_New (Rand := Z) (Some Person))).
    by exists [Person_Name; Person_Age].
  - apply (proj2 (Must_New (Rand := Z) None)). by intros fs.
Defined.

Lemma Value_result_well_typed_witness :
  TypeOf (VStruct [(Person_Name, VString "7"); (Person_Age, VInt 42)])
  = Some (Struct [Person_Name; Person_Age])
  ∧ ∃ fvs,
      VStruct [(Person_Name, VString "7"); (Person_Age, VInt 42)] = VStruct fvs
      ∧ fvs.*1 = [Person_Name; Person_Age]
      ∧ Forall (fun p => TypeOf p.2 = Some (Typ p.1)) fvs.
Proof.
  apply (Value_result_well_typed counter_quick_Value (person_Age_42 false)
           [Person_Name; Person_Age] Name_Age 7%Z 3
           (person_Age_42 false) 8%Z _ None).
  - reflexivity.
  - reflexivity.
Defined.





Lemma QuickValues_frame_witness :
  length [VInt 42; Invalid] = length [Invalid; Invalid]
  ∧ ∀ j, (length [always42 (Rand := Z)] ≤ j)%nat →
         [VInt 42; Invalid] !! j = [Invalid; Invalid] !! j.
Proof.
  apply (QuickValues_frame [always42] [Invalid; Invalid] 7%Z
           [VInt 42; Invalid] 7%Z (Returns tt)).
  reflexivity.
Defined.

Lemma always42_succeeds :
  Forall (fun gi : Generator (Rand := Z) =>
            ∀ r n, ∃ r' x, Generate gi r n = (r', Returns (x, None)))
    [always42; always42].
Proof. repeat constructor; intros r n; by exists r, (VInt 42). Qed.

Lemma QuickValues_returns_iff_witness :
  (∃ v' (r' : Z),
     QuickValues [always42; always42] [Invalid; Invalid; Invalid] 7%Z
     = (v', r', Returns tt))
  ∧ ∃ v' (r' : Z),
      QuickValues [always42; always42] [Invalid] 7%Z
      = (v', r',
         Panics (PError (runtime_Error "index out of range [1] with length 1"))).
Proof.
  split.
  - apply (proj1 (QuickValues_returns_iff [always42; always42]
                    [Invalid; Invalid; Invalid] 7%Z always42_succeeds)).
    cbn. lia.
  - apply (proj2 (QuickValues_returns_iff [always42; always42]
                    [Invalid] 7%Z always42_succeeds)).
    cbn. lia.
Defined.

Lemma QuickValues_overwrites_all_slots_witness :
  QuickValues [always42] [VBool true] 7%Z = ([VInt 42], 7%Z, Returns tt).
Proof.
  apply (QuickValues_overwrites_all_slots [always42] [Invalid] [VBool true] 7%Z);
    reflexivity.
Defined.

(** ** When value production succeeds *)

Section value_succeeds.

Context {Rand : Type}.
Variable quick_Value :
  reflect_Type → Rand → Rand * Completion (option reflect_Value).
Implicit Types (f : Fuzz (Rand := Rand)) (G gen : Generator (Rand := Rand)).
Implicit Types (l : list (string * reflect_StructField)) (r : Rand) (n : Z).
Implicit Types (fvs : list (reflect_StructField * reflect_Value)).





End value_succeeds.

Section rebinding.

Context {Rand : Type}.
Implicit Types (f : Fuzz (Rand := Rand)) (G : Generator (Rand := Rand)).

(** X20.  Replacing a generator takes two operations: in a session of the
    invariant where [F] is bound, the call with [UnbindField(F)] and then
    [BindField(F, G')] succeeds and leaves [F] bound to [G'], all else as it
    was, while [BindField(F, G')] alone fails and changes nothing. *)
Theorem Option_rebind f F G G' :
  wf f → bindings f !! F = Some G →
  Option f [UnbindField F; BindField F G']
  = (mkFuzz (<[F := G']> (bindings f)) (zeroValueFallthrough f) (typ f) (fields f),
     Returns (UnbindField F, None))
  ∧ Option f [BindField F G'] = (f, Returns (nilOption, Some errDuplBinding)).
Proof.
  intros Hwf Hbound.
  assert (is_Some (fields f !! F)) as [sf Hfield].
  { apply elem_of_dom, (wf_bindings _ Hwf), elem_of_dom. by exists G. }
  split.
  - unfold Option. cbn. rewrite Hbound. cbn.
    rewrite lookup_delete_eq, Hfield. cbn. by rewrite insert_delete_eq.
  - apply Option_single. cbn. by rewrite Hbound.
Qed.

End rebinding.



Lemma Option_rebind_witness :
  Option (person_Age_42 (Rand := Z) false) [UnbindField "Age"; BindField "Age" panicking]
  = (mkFuzz (<["Age" := panicking]> {["Age" := always42]}) false (Some Person)
       (fields_of [Person_Name; Person_Age]),
     Returns (UnbindField "Age", None))
  ∧ Option (person_Age_42 (Rand := Z) false) [BindField "Age" panicking]
    = (person_Age_42 false, Returns (nilOption, Some errDuplBinding)).
Proof.
  apply (Option_rebind (person_Age_42 false) "Age" always42 panicking).
  - apply person_Age_42_wf.
  - reflexivity.
Defined.

(** ** Generators that reconfigure the session *)

Section reentrant.

Context {Rand : Type}.
Variable quick_Value :
  reflect_Type → Rand → Rand * Completion (option reflect_Value).
Implicit Types (f : Fuzz (Rand := Rand)) (G gen : Generator (Rand := Rand)).
Implicit Types (l : list (string * reflect_StructField)) (r : Rand) (n : Z).
Implicit Types
  (reconfigures : Generator (Rand := Rand) → Rand → Z
                  → list (list (option_ (Rand := Rand)))).







End reentrant.

(** ** Values obtained through fields that are not exported *)

Section read_only.

Context {Rand : Type}.
Variable quick_Value :
  reflect_Type → Rand → Rand * Completion (option reflect_Value).
Implicit Types (f : Fuzz (Rand := Rand)) (G gen : Generator (Rand := Rand)).
Implicit Types (l : list (string * reflect_StructField)) (r : Rand) (n : Z).





End read_only.

(** [Set] and [FieldByName] on a read-only record. *)
Example FieldByName_of_read_only_record :
  FieldByName_Set (VReadOnly (Zero Person)) "Age" (VInt 1)
  = Panics (PString
      "reflect: reflect.Value.Set using value obtained using unexported field")
  ∧ FieldByName_Set (VReadOnly (Zero Person)) "Nickname" (VInt 1)
    = Panics (PError (reflect_ValueError "reflect.Value.Set" "zero"))
  ∧ FieldByName_Set (VReadOnly (VInt 1)) "Age" (VInt 1)
    = Panics (PError (reflect_ValueError "reflect.Value.FieldByName" "int"))
  ∧ FieldByName (VReadOnly (Zero Person)) "Age" = Some (VReadOnly (VInt 0))
  ∧ FieldByName_Set (Zero Person) "Age" (VReadOnly (VInt 1))
    = Panics (PString
        "reflect: reflect.Value.Set using value obtained using unexported field")
  ∧ TypeOf (VReadOnly (VInt 1)) = Some Int.
Proof. repeat split. Qed.



